(** * Hook lifecycle of the OpenFeature Go SDK: [pkg/openfeature/hooks.go]

    A shallow embedding of the value objects [HookHints] and [HookContext],
    of the [Hook] interface and of its no-op implementation
    [UnimplementedHook], followed by the properties of the package's
    specification that concern them.

    Go maps are reference values: the embedding keeps a store of map objects
    and lets a map variable be either the nil map or the address of an
    object, so that two variables naming one map object are visible as such. *)

From stdpp Require Import gmap strings list.

(** ** Declarations used by hooks.go and made elsewhere

    [hooks.go] mentions types of package [openfeature] that other files
    declare ([Type], [ClientMetadata], [Metadata], [EvaluationContext] and
    its method [Context], [InterfaceEvaluationDetails]) and ambient Go types
    ([context.Context], the non-nil values an [interface{}] or an [error] can
    hold).  They are taken as parameters.  [World] is the state that
    user-written hook code may read and write. *)
Class Decls := {
  dyn : Type;
  Err : Type;
  Type_ : Type;
  ClientMetadata : Type;
  Metadata : Type;
  EvaluationContext : Type;
  context_Context : Type;
  EvaluationContext_Context : EvaluationContext -> context_Context;
  InterfaceEvaluationDetails : Type;
  World : Type
}.

Section openfeature.
Context `{D : Decls}.

(** Go's [interface{}]: the nil interface or a boxed dynamic value. *)
Inductive any : Type :=
  | Nil
  | Box (d : dyn).

(** Go's [error]: nil or an error value. *)
Definition error : Type := option Err.

(** ** Go maps with reference semantics *)

(** Address of a map object. *)
Definition loc : Type := positive.

(** A variable of type [map[string]interface{}]: nil or a reference. *)
Definition mapref : Type := option loc.

(** The store of map objects. *)
Definition store : Type := gmap loc (gmap string any).

(** Result of running a piece of Go code on a store. *)
Inductive outcome (A : Type) : Type :=
  | Returned (a : A) (s : store)
  | Panicked.
Arguments Returned {A} a s.
Arguments Panicked {A}.

Definition Go (A : Type) : Type := store -> outcome A.

Definition go_ret {A} (a : A) : Go A := fun s => Returned a s.

Definition go_bind {A B} (c : Go A) (k : A -> Go B) : Go B :=
  fun s => match c s with
           | Returned a s' => k a s'
           | Panicked => Panicked
           end.

(** The value a run returns, if it returns. *)
Definition returned {A} (o : outcome A) : option A :=
  match o with
  | Returned a _ => Some a
  | Panicked => None
  end.

(** The entries of the map a variable refers to; the nil map has none.  Go
    has no dangling map references: an address outside the store does not
    occur in a run, and reads as an empty map here. *)
Definition entries (s : store) (m : mapref) : gmap string any :=
  match m with
  | None => ∅
  | Some l => default ∅ (s !! l)
  end.

(** [m[key]] as an expression: the zero value (nil interface) when the key
    is absent, also on the nil map. *)
Definition map_index (m : mapref) (key : string) : Go any :=
  fun s => Returned (default Nil (entries s m !! key)) s.

(** [m[key] = v]: panics on the nil map. *)
Definition map_assign (m : mapref) (key : string) (v : any) : Go unit :=
  fun s => match m with
           | None => Panicked
           | Some l => Returned tt (<[l := <[key := v]> (entries s m)]> s)
           end.

(** [delete(m, key)]: a no-op on the nil map. *)
Definition map_delete (m : mapref) (key : string) : Go unit :=
  fun s => match m with
           | None => Returned tt s
           | Some l => Returned tt (<[l := delete key (entries s m)]> s)
           end.

(** ** HookHints *)

Record HookHints : Type := mkHookHints {
  mapOfHints : mapref
}.

Definition NewHookHints (mapOfHints : mapref) : HookHints :=
  mkHookHints mapOfHints.

Definition HookHints_Value (h : HookHints) (key : string) : Go any :=
  map_index (mapOfHints h) key.

(** A caller that looks up several keys, one after the other. *)
Fixpoint lookups (h : HookHints) (keys : list string) : Go (list any) :=
  match keys with
  | [] => go_ret []
  | key :: rest =>
      go_bind (HookHints_Value h key) (fun v =>
      go_bind (lookups h rest) (fun vs => go_ret (v :: vs)))
  end.

(** A caller that builds hints from its map [m], reads [key] through them,
    then writes [m[k] = v] itself and reads [key] through the hints again. *)
Definition read_write_read (m : mapref) (key k : string) (v : any)
    : Go (any * any) :=
  let h := NewHookHints m in
  go_bind (HookHints_Value h key) (fun before =>
  go_bind (map_assign m k v) (fun _ =>
  go_bind (HookHints_Value h key) (fun after =>
  go_ret (before, after)))).

(** ** HookContext *)

Record HookContext : Type := mkHookContext {
  flagKey : string;
  flagType : Type_;
  defaultValue : any;
  clientMetadata : ClientMetadata;
  providerMetadata : Metadata;
  evaluationContext : EvaluationContext
}.

Definition HookContext_FlagKey (h : HookContext) : string := flagKey h.
Definition HookContext_FlagType (h : HookContext) : Type_ := flagType h.
Definition HookContext_DefaultValue (h : HookContext) : any := defaultValue h.
Definition HookContext_ClientMetadata (h : HookContext) : ClientMetadata :=
  clientMetadata h.
Definition HookContext_ProviderMetadata (h : HookContext) : Metadata :=
  providerMetadata h.
Definition HookContext_EvaluationContext (h : HookContext) : EvaluationContext :=
  evaluationContext h.

Definition HookContext_Context (h : HookContext) : context_Context :=
  EvaluationContext_Context (HookContext_EvaluationContext h).

Definition NewHookContext
    (flagKey : string)
    (flagType : Type_)
    (defaultValue : any)
    (clientMetadata : ClientMetadata)
    (providerMetadata : Metadata)
    (evaluationContext : EvaluationContext) : HookContext :=
  {| flagKey := flagKey;
     flagType := flagType;
     defaultValue := defaultValue;
     clientMetadata := clientMetadata;
     providerMetadata := providerMetadata;
     evaluationContext := evaluationContext |}.

(** ** The Hook interface

    A method of a user-written hook is arbitrary code: it returns its results
    together with the world it leaves behind.  A [*EvaluationContext] is
    [None] when nil. *)
Record Hook : Type := mkHook {
  Before : HookContext -> HookHints -> World ->
           (option EvaluationContext * error) * World;
  After : HookContext -> InterfaceEvaluationDetails -> HookHints -> World ->
          (option EvaluationContext * error) * World;
  Error : HookContext -> error -> HookHints -> World ->
          option EvaluationContext * World;
  Finally : HookContext -> HookHints -> World ->
            option EvaluationContext * World
}.

(** ** UnimplementedHook *)

Inductive UnimplementedHook : Type := UnimplementedHook_lit.

Definition UnimplementedHook_After (_ : UnimplementedHook)
    (_ : HookContext) (_ : InterfaceEvaluationDetails) (_ : HookHints)
    (w : World) : (option EvaluationContext * error) * World :=
  ((None, None), w).

Definition UnimplementedHook_Before (_ : UnimplementedHook)
    (_ : HookContext) (_ : HookHints)
    (w : World) : (option EvaluationContext * error) * World :=
  ((None, None), w).

Definition UnimplementedHook_Error (_ : UnimplementedHook)
    (_ : HookContext) (_ : error) (_ : HookHints)
    (w : World) : option EvaluationContext * World :=
  (None, w).

Definition UnimplementedHook_Finally (_ : UnimplementedHook)
    (_ : HookContext) (_ : HookHints)
    (w : World) : option EvaluationContext * World :=
  (None, w).

(** [var _ Hook = UnimplementedHook{}]: the struct seen through the
    interface. *)
Definition UnimplementedHook_Hook (u : UnimplementedHook) : Hook :=
  {| Before := UnimplementedHook_Before u;
     After := UnimplementedHook_After u;
     Error := UnimplementedHook_Error u;
     Finally := UnimplementedHook_Finally u |}.

End openfeature.

Arguments Returned {D A} a s.
Arguments Panicked {D A}.

(** ** The hook executor

    The executor that drives a list of hooks through one evaluation is not
    part of [hooks.go]; so are the resolution engine and the merge of
    evaluation contexts it calls. *)

(** Modelled from the spec: the external collaborators of the executor,
    which are the merge of an evaluation-context delta into the running
    evaluation context ([merge running delta], the delta taking precedence)
    and the resolution engine's single operation
    [Resolve(flagKey, flagType, defaultValue, mergedContext)]. *)
Class Engine `{D : Decls} := {
  merge : EvaluationContext -> EvaluationContext -> EvaluationContext;
  Resolve : string -> Type_ -> any -> EvaluationContext -> World ->
            (InterfaceEvaluationDetails * error) * World
}.

Section executor.
Context `{G : Engine}.

(** An invocation made by the executor, with the error it came back with
    where the operation can fail.  Hooks are named by their position in
    registration order, counted from 1. *)
Inductive event : Type :=
  | EvBefore (i : nat) (err : error)
  | EvResolve (err : error)
  | EvAfter (i : nat) (err : error)
  | EvError (i : nat) (e : Err)
  | EvFinally (i : nat).

(** What the caller of an evaluation receives. *)
Inductive result : Type :=
  | Resolved (details : InterfaceEvaluationDetails)
  | Failed (e : Err).

(** Executor code: it changes the world through the calls it makes and
    logs each of them. *)
Definition Exec (A : Type) : Type := World -> A * World * list event.

Definition exec_ret {A} (a : A) : Exec A := fun w => (a, w, []).

Definition exec_bind {A B} (c : Exec A) (k : A -> Exec B) : Exec B :=
  fun w =>
    let '(a, w1, t1) := c w in
    let '(b, w2, t2) := k a w1 in
    (b, w2, t1 ++ t2).

Definition call {A} (f : World -> A * World) : Exec A :=
  fun w => let '(a, w') := f w in (a, w', []).

Definition emit (ev : event) : Exec unit := fun w => (tt, w, [ev]).

#[local] Instance exec_mret : MRet Exec := @exec_ret.
#[local] Instance exec_mbind : MBind Exec := fun A B k c => exec_bind c k.

(** Modelled from the spec: the hooks in registration order, each with its
    position. *)
Definition numbered (hooks : list Hook) : list (nat * Hook) :=
  combine (seq 1 (length hooks)) hooks.

(** Modelled from the spec: merging a hook's evaluation-context delta into
    the context later calls see; a nil delta changes nothing. *)
Definition absorb (hc : HookContext) (delta : option EvaluationContext)
    : HookContext :=
  match delta with
  | None => hc
  | Some d =>
      NewHookContext
        (HookContext_FlagKey hc) (HookContext_FlagType hc)
        (HookContext_DefaultValue hc) (HookContext_ClientMetadata hc)
        (HookContext_ProviderMetadata hc)
        (merge (HookContext_EvaluationContext hc) d)
  end.

(** Modelled from the spec: stage [BeforeRunning] (section 4.4, transitions
    1 and 2).  [Before] is invoked in registration order and stops at the
    first failure; [ran] collects the hooks whose [Before] was invoked, the
    last one first.  The delta of a failed [Before] is not merged. *)
Fixpoint runBefore (hs : list (nat * Hook)) (hc : HookContext)
    (hh : HookHints) (ran : list (nat * Hook))
    : Exec (list (nat * Hook) * HookContext * error) :=
  match hs with
  | [] => exec_ret (ran, hc, None)
  | (i, h) :: rest =>
      '(delta, err) ← call (Before h hc hh);
      _ ← emit (EvBefore i err);
      match err with
      | Some e => exec_ret ((i, h) :: ran, hc, Some e)
      | None => runBefore rest (absorb hc delta) hh ((i, h) :: ran)
      end
  end.

(** Modelled from the spec: stage [AfterRunning] over the hooks that ran,
    last-registered first (transition 5).  The spec leaves open what follows
    a failed [After]; here the remaining [After] calls are dropped and the
    error is handed on. *)
Fixpoint runAfter (ran : list (nat * Hook)) (hc : HookContext)
    (details : InterfaceEvaluationDetails) (hh : HookHints)
    : Exec (HookContext * error) :=
  match ran with
  | [] => exec_ret (hc, None)
  | (i, h) :: rest =>
      '(delta, err) ← call (After h hc details hh);
      _ ← emit (EvAfter i err);
      match err with
      | Some e => exec_ret (hc, Some e)
      | None => runAfter rest (absorb hc delta) details hh
      end
  end.

(** Modelled from the spec: stage [ErrorRunning] over the hooks that ran,
    last-registered first; every hook receives the triggering error. *)
Fixpoint runError (ran : list (nat * Hook)) (hc : HookContext) (e : Err)
    (hh : HookHints) : Exec HookContext :=
  match ran with
  | [] => exec_ret hc
  | (i, h) :: rest =>
      delta ← call (Error h hc (Some e) hh);
      _ ← emit (EvError i e);
      runError rest (absorb hc delta) e hh
  end.

(** Modelled from the spec: stage [FinallyRunning] over the hooks whose
    [Before] was invoked, last-registered first (transition 6). *)
Fixpoint runFinally (ran : list (nat * Hook)) (hc : HookContext)
    (hh : HookHints) : Exec HookContext :=
  match ran with
  | [] => exec_ret hc
  | (i, h) :: rest =>
      delta ← call (Finally h hc hh);
      _ ← emit (EvFinally i);
      runFinally rest (absorb hc delta) hh
  end.

(** Modelled from the spec: the tail shared by every failing evaluation,
    [ErrorRunning] then [FinallyRunning], the caller receiving the
    triggering error. *)
Definition fail (ran : list (nat * Hook)) (hc : HookContext) (e : Err)
    (hh : HookHints) : Exec result :=
  hc' ← runError ran hc e hh;
  _ ← runFinally ran hc' hh;
  exec_ret (Failed e).

(** Modelled from the spec: one evaluation, the state machine
    [Pending -> BeforeRunning -> Resolving -> (AfterRunning | ErrorRunning)
    -> FinallyRunning -> Done] of section 4.4.  A failed [After] is promoted
    to the terminal error, as section 7 recommends. *)
Definition evaluate (hooks : list Hook) (hc : HookContext) (hh : HookHints)
    : Exec result :=
  '(ran, hc1, berr) ← runBefore (numbered hooks) hc hh [];
  match berr with
  | Some e => fail ran hc1 e hh
  | None =>
      '(details, rerr) ←
        call (Resolve (HookContext_FlagKey hc1) (HookContext_FlagType hc1)
                (HookContext_DefaultValue hc1)
                (HookContext_EvaluationContext hc1));
      _ ← emit (EvResolve rerr);
      match rerr with
      | Some e => fail ran hc1 e hh
      | None =>
          '(hc2, aerr) ← runAfter ran hc1 details hh;
          match aerr with
          | Some e => fail ran hc2 e hh
          | None =>
              _ ← runFinally ran hc2 hh;
              exec_ret (Resolved details)
          end
      end
  end.

(** The invocation trace of a run. *)
Definition trace_of {A} (r : A * World * list event) : list event := snd r.

(** The value a run hands back. *)
Definition value_of {A} (r : A * World * list event) : A := fst (fst r).


(** An event that did not fail. *)
Definition succeeded (ev : event) : bool :=
  match ev with
  | EvBefore _ (Some _) | EvResolve (Some _) | EvAfter _ (Some _) => false
  | _ => true
  end.

(** Whether an event is a call of the resolution engine. *)
Definition is_resolve (ev : event) : bool :=
  match ev with
  | EvResolve _ => true
  | _ => false
  end.

(** The number of [Resolve] calls in a trace. *)
Definition resolves (tr : list event) : nat :=
  length (List.filter is_resolve tr).

(** Segments of a trace: [Before] succeeding on hooks [1..k], then [After]
    succeeding, [Error] receiving [e] and [Finally] on hooks [k..1]. *)
Definition befores (k : nat) : list event :=
  map (fun i => EvBefore i None) (seq 1 k).
Definition afters (k : nat) : list event :=
  map (fun i => EvAfter i None) (rev (seq 1 k)).
Definition errors (k : nat) (e : Err) : list event :=
  map (fun i => EvError i e) (rev (seq 1 k)).
Definition finallys (k : nat) : list event :=
  map EvFinally (rev (seq 1 k)).

(** The world a run leaves behind. *)
Definition world_of {A} (r : A * World * list event) : World := snd (fst r).

(** *** Calls, made one after the other

    The order of invocations is stated against the hooks themselves: a
    schedule names each call, and [perform] makes the calls of a schedule
    one after the other, on the hooks' own methods and on the engine. *)

(** A call on a hook, or on the resolution engine. *)
Inductive invocation : Type :=
  | CallBefore (h : Hook)
  | CallResolve
  | CallAfter (h : Hook) (details : InterfaceEvaluationDetails)
  | CallError (h : Hook) (e : Err)
  | CallFinally (h : Hook).

(** Where a sequence of calls has got to: the hook context and the world
    the next call sees, the error each call so far came back with, and the
    details of the last [Resolve]. *)
Record progress : Type := mkProgress {
  at_context : HookContext;
  at_world : World;
  replies : list error;
  resolved : option InterfaceEvaluationDetails
}.

Definition start (hc : HookContext) (w : World) : progress :=
  mkProgress hc w [] None.

(** Modelled from the spec: the delta of a call is merged into the running
    context unless the call failed. *)
Definition absorb_reply (hc : HookContext) (delta : option EvaluationContext)
    (err : error) : HookContext :=
  match err with
  | None => absorb hc delta
  | Some _ => hc
  end.

(** Modelled from the spec: one call, made on the context and the world
    reached so far. *)
Definition make_call (hh : HookHints) (p : progress) (c : invocation)
    : progress :=
  match c with
  | CallBefore h =>
      let '((delta, err), w) := Before h (at_context p) hh (at_world p) in
      mkProgress (absorb_reply (at_context p) delta err) w
        (replies p ++ [err]) (resolved p)
  | CallResolve =>
      let '((d, err), w) :=
        Resolve (HookContext_FlagKey (at_context p))
          (HookContext_FlagType (at_context p))
          (HookContext_DefaultValue (at_context p))
          (HookContext_EvaluationContext (at_context p)) (at_world p) in
      mkProgress (at_context p) w (replies p ++ [err]) (Some d)
  | CallAfter h d =>
      let '((delta, err), w) := After h (at_context p) d hh (at_world p) in
      mkProgress (absorb_reply (at_context p) delta err) w
        (replies p ++ [err]) (resolved p)
  | CallError h e =>
      let '(delta, w) := Error h (at_context p) (Some e) hh (at_world p) in
      mkProgress (absorb (at_context p) delta) w
        (replies p ++ [None]) (resolved p)
  | CallFinally h =>
      let '(delta, w) := Finally h (at_context p) hh (at_world p) in
      mkProgress (absorb (at_context p) delta) w
        (replies p ++ [None]) (resolved p)
  end.

(** Modelled from the spec: the calls of a schedule, in order. *)
Definition perform (hh : HookHints) (cs : list invocation) (p : progress)
    : progress :=
  fold_left (make_call hh) cs p.

(** [k] calls that came back without an error. *)
Definition quiet (k : nat) : list error := repeat None k.

(** Modelled from the spec: [Error] with [e] and then [Finally], each on the
    invoked hooks from the last to the first. *)
Definition unwind (invoked : list Hook) (e : Err) : list invocation :=
  map (fun h => CallError h e) (rev invoked) ++
  map CallFinally (rev invoked).

(** Modelled from the spec: the calls of an evaluation in which nothing
    fails and the engine returns [d]. *)
Definition resolved_schedule (hooks : list Hook)
    (d : InterfaceEvaluationDetails) : list invocation :=
  map CallBefore hooks ++ CallResolve ::
  map (fun h => CallAfter h d) (rev hooks) ++ map CallFinally (rev hooks).

(** Modelled from the spec: the calls of an evaluation in which the
    [Before] of hook [k] fails with [e]. *)
Definition before_failed_schedule (hooks : list Hook) (k : nat) (e : Err)
    : list invocation :=
  map CallBefore (firstn k hooks) ++ unwind (firstn k hooks) e.

(** Modelled from the spec: the calls of an evaluation in which [Resolve]
    fails with [e]. *)
Definition resolve_failed_schedule (hooks : list Hook) (e : Err)
    : list invocation :=
  map CallBefore hooks ++ CallResolve :: unwind hooks e.

(** The four courses an evaluation over [hooks] can take from context [hc]
    and world [w]: what the caller receives, the world left behind and the
    trace, with the schedule that was carried out. *)
Inductive lifecycle (hooks : list Hook) (hc : HookContext) (hh : HookHints)
    (w : World) : result * World * list event -> Prop :=
  | lifecycle_resolved d p :
      perform hh (resolved_schedule hooks d) (start hc w) = p ->
      replies p
      = quiet (length hooks) ++ None ::
        quiet (length hooks) ++ quiet (length hooks) ->
      resolved p = Some d ->
      lifecycle hooks hc hh w
        (Resolved d, at_world p,
         befores (length hooks) ++ EvResolve None ::
         afters (length hooks) ++ finallys (length hooks))
  | lifecycle_before_failed k e p :
      1 <= k <= length hooks ->
      perform hh (before_failed_schedule hooks k e) (start hc w) = p ->
      replies p = quiet (k - 1) ++ Some e :: quiet k ++ quiet k ->
      resolved p = None ->
      lifecycle hooks hc hh w
        (Failed e, at_world p,
         befores (k - 1) ++ EvBefore k (Some e) :: errors k e ++ finallys k)
  | lifecycle_resolve_failed e p :
      perform hh (resolve_failed_schedule hooks e) (start hc w) = p ->
      replies p
      = quiet (length hooks) ++ Some e ::
        quiet (length hooks) ++ quiet (length hooks) ->
      lifecycle hooks hc hh w
        (Failed e, at_world p,
         befores (length hooks) ++ EvResolve (Some e) ::
         errors (length hooks) e ++ finallys (length hooks))
  | lifecycle_after_failed j e w' :
      1 <= j <= length hooks ->
      lifecycle hooks hc hh w
        (Failed e, w',
         befores (length hooks) ++ EvResolve None ::
         map (fun i => EvAfter i None)
             (rev (seq (S j) (length hooks - j))) ++
         EvAfter j (Some e) ::
         errors (length hooks) e ++ finallys (length hooks)).

End executor.

(** ** A concrete instance

    Flag types are numbered, metadata are names, an evaluation context is an
    association list whose first binding of a key is the one in force, and
    the world is a log that hooks and the engine append to. *)
Module Demo.

Definition decls : Decls :=
  {| dyn := Z;
     Err := string;
     Type_ := nat;
     ClientMetadata := string;
     Metadata := string;
     EvaluationContext := list (string * Z);
     context_Context := unit;
     EvaluationContext_Context := fun _ => tt;
     InterfaceEvaluationDetails := Z;
     World := list string |}.

(** The engine resolves every flag to 42, or fails with [rerr]. *)
Definition engine (rerr : option string) : @Engine decls :=
  @Build_Engine decls
    (fun running delta : list (string * Z) => delta ++ running)
    (fun _ _ _ _ (w : list string) => ((42%Z, rerr), w ++ ["Resolve"])).

(** A hook that logs each of its calls under its name, sets the attribute
    of that name in [Before], and fails there with [berr] when given. *)
Definition noisy (name : string) (berr : option string) : @Hook decls :=
  @mkHook decls
    (fun _ _ (w : list string) =>
       ((Some [(name, 1%Z)], berr), w ++ [name +:+ ".Before"]))
    (fun _ _ _ (w : list string) => ((None, None), w ++ [name +:+ ".After"]))
    (fun _ _ _ (w : list string) => (None, w ++ [name +:+ ".Error"]))
    (fun _ _ (w : list string) => (None, w ++ [name +:+ ".Finally"])).

Definition hc0 : @HookContext decls :=
  @NewHookContext decls "flag" 0 (@Box decls 7%Z) "client" "provider" [].

Definition hh0 : HookHints := NewHookHints None.

(** A store with one map object, at address 1, holding ["a" := 1]. *)
Definition store0 : @store decls :=
  {[ 1%positive := {[ "a" := @Box decls 1%Z ]} ]}.

End Demo.

(** * Properties *)

(** ** HookHints *)
Section hints_properties.
Context `{D : Decls}.

Lemma go_bind_Returned {A B} (c : Go A) (k : A -> Go B) (s s' : store) (a : A) :
  c s = Returned a s' -> go_bind c k s = k a s'.
Proof. unfold go_bind. intros ->. reflexivity. Qed.

Lemma HookHints_Value_run (h : HookHints) (key : string) (s : store) :
  HookHints_Value h key s
  = Returned (default Nil (entries s (mapOfHints h) !! key)) s.
Proof. reflexivity. Qed.

Lemma lookups_run (h : HookHints) (keys : list string) (s : store) :
  exists vs, lookups h keys s = Returned vs s.
Proof.
  induction keys as [|key rest [vs IH]]; simpl.
  - exists []. reflexivity.
  - exists (default Nil (entries s (mapOfHints h) !! key) :: vs).
    rewrite (go_bind_Returned _ _ _ _ _ (HookHints_Value_run h key s)).
    rewrite (go_bind_Returned _ _ _ _ _ IH). reflexivity.
Qed.

Lemma entries_insert (l : loc) (s : store) (M : gmap string any) :
  entries (<[l := M]> s) (Some l) = M.
Proof. unfold entries, store, loc. rewrite lookup_insert_eq. reflexivity. Qed.

(** C1, in the form the code supports: [NewHookHints] keeps the caller's map reference and
    does not copy.  A caller that builds hints from a map object, reads
    [key], writes [m[k] = v] and reads [key] again sees, on the second read,
    [v] when [k] is [key] and the first read's value for every other key;
    nothing panics. *)
Theorem NewHookHints_shares_map (l : loc) (key k : string) (v : any) (s : store) :
  read_write_read (Some l) key k v s
  = Returned
      (default Nil (entries s (Some l) !! key),
       if decide (k = key) then v
       else default Nil (entries s (Some l) !! key))
      (<[l := <[k := v]> (entries s (Some l))]> s).
Proof.
  unfold read_write_read, go_bind, HookHints_Value, map_index, map_assign, go_ret.
  cbn [mapOfHints NewHookHints].
  rewrite entries_insert.
  rewrite lookup_insert. destruct (decide (k = key)); reflexivity.
Qed.

(** C5, in the form the code supports: [Value(key)] on hints built from a
    map returns the value the map holds under [key] when the call is made,
    returns the nil interface when the key is absent, and leaves the store
    as it was, so that after any further [Value] calls the same call returns
    the same value again. *)
Theorem HookHints_Value_stored (m : mapref) (s : store) (key : string)
    (others : list string) (v : any) :
  entries s m !! key = Some v \/ (entries s m !! key = None /\ v = Nil) ->
  HookHints_Value (NewHookHints m) key s = Returned v s /\
  go_bind (lookups (NewHookHints m) others)
          (fun _ => HookHints_Value (NewHookHints m) key) s = Returned v s.
Proof.
  intros Hst.
  assert (Hv : HookHints_Value (NewHookHints m) key s = Returned v s).
  { rewrite HookHints_Value_run. cbn [mapOfHints NewHookHints].
    destruct Hst as [-> | [-> ->]]; reflexivity. }
  split; [exact Hv|].
  destruct (lookups_run (NewHookHints m) others s) as [vs Hvs].
  rewrite (go_bind_Returned _ _ _ _ _ Hvs). exact Hv.
Qed.

(** C9: on hints built from the nil map, [Value(key)] returns the nil
    interface for every key, without a panic and without touching the
    store. *)
Theorem HookHints_Value_nil_map (key : string) (s : store) :
  HookHints_Value (NewHookHints None) key s = Returned Nil s.
Proof. reflexivity. Qed.

(** C10: a key stored with the nil interface and a key that is absent look
    the same through [Value].  After [m[k] = nil] and after [delete(m, k)],
    hints over [m] return the same value for every key, and the nil
    interface for [k]. *)
Theorem HookHints_Value_nil_entry (l : loc) (k key : string) (s : store) :
  returned (go_bind (map_assign (Some l) k Nil)
              (fun _ => HookHints_Value (NewHookHints (Some l)) key) s)
  = returned (go_bind (map_delete (Some l) k)
                (fun _ => HookHints_Value (NewHookHints (Some l)) key) s)
  /\ returned (go_bind (map_assign (Some l) k Nil)
                (fun _ => HookHints_Value (NewHookHints (Some l)) k) s)
     = Some Nil
  /\ returned (go_bind (map_delete (Some l) k)
                (fun _ => HookHints_Value (NewHookHints (Some l)) k) s)
     = Some Nil.
Proof.
  unfold go_bind, map_assign, map_delete, HookHints_Value, map_index, returned.
  cbn [mapOfHints NewHookHints].
  rewrite !entries_insert.
  rewrite lookup_insert_eq, lookup_delete_eq.
  split; [|split; reflexivity].
  rewrite lookup_insert, lookup_delete.
  destruct (decide (k = key)); reflexivity.
Qed.

End hints_properties.

(** ** HookContext *)
Section context_properties.
Context `{D : Decls}.

(** C6: each of the six accessors returns the value [NewHookContext] was
    given for its field.  An accessor is a function of the (value) receiver
    and has nothing to write to; rebuilding a context from what the accessors
    return gives the context back. *)
Theorem NewHookContext_accessors (k : string) (t : Type_) (d : any)
    (cm : ClientMetadata) (pm : Metadata) (ec : EvaluationContext)
    (h : HookContext) :
  HookContext_FlagKey (NewHookContext k t d cm pm ec) = k /\
  HookContext_FlagType (NewHookContext k t d cm pm ec) = t /\
  HookContext_DefaultValue (NewHookContext k t d cm pm ec) = d /\
  HookContext_ClientMetadata (NewHookContext k t d cm pm ec) = cm /\
  HookContext_ProviderMetadata (NewHookContext k t d cm pm ec) = pm /\
  HookContext_EvaluationContext (NewHookContext k t d cm pm ec) = ec /\
  NewHookContext (HookContext_FlagKey h) (HookContext_FlagType h)
    (HookContext_DefaultValue h) (HookContext_ClientMetadata h)
    (HookContext_ProviderMetadata h) (HookContext_EvaluationContext h) = h.
Proof.
  repeat split. destruct h; reflexivity.
Qed.

(** C7: [Context()] of a hook context is the [Context()] of its evaluation
    context, which for a context built by [NewHookContext] is that of the
    evaluation context passed in. *)
Theorem HookContext_Context_embedded (h : HookContext) (k : string)
    (t : Type_) (d : any) (cm : ClientMetadata) (pm : Metadata)
    (ec : EvaluationContext) :
  HookContext_Context h
  = EvaluationContext_Context (HookContext_EvaluationContext h) /\
  HookContext_Context (NewHookContext k t d cm pm ec)
  = EvaluationContext_Context ec.
Proof. split; reflexivity. Qed.

(** C8: the four operations of [UnimplementedHook] return nil results
    whatever they are given ([Before] and [After] a nil delta and a nil
    error, [Error] and [Finally] a nil delta) and leave the world as they
    found it, also when called through the [Hook] interface. *)
Theorem UnimplementedHook_noop (u : UnimplementedHook) (hc : HookContext)
    (hh : HookHints) (details : InterfaceEvaluationDetails) (err : error)
    (w : World) :
  UnimplementedHook_Before u hc hh w = ((None, None), w) /\
  UnimplementedHook_After u hc details hh w = ((None, None), w) /\
  UnimplementedHook_Error u hc err hh w = (None, w) /\
  UnimplementedHook_Finally u hc hh w = (None, w) /\
  Before (UnimplementedHook_Hook u) hc hh w = ((None, None), w) /\
  After (UnimplementedHook_Hook u) hc details hh w = ((None, None), w) /\
  Error (UnimplementedHook_Hook u) hc err hh w = (None, w) /\
  Finally (UnimplementedHook_Hook u) hc hh w = (None, w).
Proof. repeat split. Qed.

End context_properties.

(** ** The hook executor *)
Section executor_properties.
Context `{G : Engine}.

#[local] Arguments perform : simpl never.
#[local] Arguments quiet : simpl never.

(** *** Positions *)

Lemma seq_split (a n b : nat) (A C : list nat) :
  seq a n = A ++ b :: C ->
  A = seq a (length A) /\ b = a + length A /\
  C = seq (S (a + length A)) (length C) /\ n = length A + S (length C).
Proof.
  intros H.
  assert (Hn : n = length A + S (length C)).
  { apply (f_equal (@length nat)) in H.
    rewrite List.length_seq, List.length_app in H. simpl in H. lia. }
  subst n. rewrite List.seq_app in H.
  apply app_inj_1 in H as [HA HB]; [|by rewrite List.length_seq].
  simpl in HB. injection HB as Hb HC. repeat split; auto.
Qed.

Lemma numbered_from (a : nat) (hooks : list Hook) :
  map fst (combine (seq a (length hooks)) hooks) = seq a (length hooks).
Proof.
  revert a. induction hooks as [|h rest IH]; intros a; simpl; [reflexivity|].
  by rewrite IH.
Qed.

Lemma numbered_positions (hooks : list Hook) :
  map fst (numbered hooks) = seq 1 (length hooks).
Proof. apply numbered_from. Qed.

Lemma numbered_hooks_from (a : nat) (hooks : list Hook) :
  map snd (combine (seq a (length hooks)) hooks) = hooks.
Proof.
  revert a. induction hooks as [|h rest IH]; intros a; simpl; [reflexivity|].
  by rewrite IH.
Qed.

Lemma numbered_hooks (hooks : list Hook) : map snd (numbered hooks) = hooks.
Proof. apply numbered_hooks_from. Qed.

Lemma rev_seq_S (k : nat) : rev (seq 1 (S k)) = S k :: rev (seq 1 k).
Proof. rewrite List.seq_S, List.rev_app_distr. reflexivity. Qed.

Lemma quiet_S (k : nat) (fs : list error) :
  (fs ++ [None]) ++ quiet k = fs ++ quiet (S k).
Proof. by rewrite <- List.app_assoc. Qed.

(** *** Schedules *)

Lemma perform_app hh cs1 cs2 p :
  perform hh (cs1 ++ cs2) p = perform hh cs2 (perform hh cs1 p).
Proof. apply List.fold_left_app. Qed.

Lemma perform_cons hh c cs p :
  perform hh (c :: cs) p = perform hh cs (make_call hh p c).
Proof. reflexivity. Qed.

(** *** The stages, one at a time: what is logged and what is called *)

Lemma runError_run ran hc e hh w fs od :
  match runError ran hc e hh w with
  | (hc', w', tr) =>
      tr = map (fun x => EvError (fst x) e) ran /\
      perform hh (map (fun h => CallError h e) (map snd ran))
        (mkProgress hc w fs od)
      = mkProgress hc' w' (fs ++ quiet (length ran)) od
  end.
Proof.
  revert hc w fs. induction ran as [|[i h] rest IH]; intros hc w fs.
  { simpl. split; [reflexivity|]. by rewrite List.app_nil_r. }
  cbn [runError]. unfold mbind, exec_mbind, exec_bind, call, emit.
  cbn [map snd length]. rewrite perform_cons.
  cbn [make_call at_context at_world replies resolved].
  destruct (Error h hc (Some e) hh w) as [delta w1].
  specialize (IH (absorb hc delta) w1 (fs ++ [None])).
  destruct (runError rest (absorb hc delta) e hh w1) as [[hc' w2] t].
  destruct IH as [-> IH]. split; [reflexivity|].
  etransitivity; [exact IH|]. by rewrite quiet_S.
Qed.

Lemma runFinally_run ran hc hh w fs od :
  match runFinally ran hc hh w with
  | (hc', w', tr) =>
      tr = map (fun x => EvFinally (fst x)) ran /\
      perform hh (map CallFinally (map snd ran)) (mkProgress hc w fs od)
      = mkProgress hc' w' (fs ++ quiet (length ran)) od
  end.
Proof.
  revert hc w fs. induction ran as [|[i h] rest IH]; intros hc w fs.
  { simpl. split; [reflexivity|]. by rewrite List.app_nil_r. }
  cbn [runFinally]. unfold mbind, exec_mbind, exec_bind, call, emit.
  cbn [map snd length]. rewrite perform_cons.
  cbn [make_call at_context at_world replies resolved].
  destruct (Finally h hc hh w) as [delta w1].
  specialize (IH (absorb hc delta) w1 (fs ++ [None])).
  destruct (runFinally rest (absorb hc delta) hh w1) as [[hc' w2] t].
  destruct IH as [-> IH]. split; [reflexivity|].
  etransitivity; [exact IH|]. by rewrite quiet_S.
Qed.

Lemma fail_run ran hc e hh w fs od :
  match fail ran hc e hh w with
  | (r, w', tr) =>
      r = Failed e /\
      tr = map (fun x => EvError (fst x) e) ran ++
           map (fun x => EvFinally (fst x)) ran /\
      exists hc',
        perform hh
          (map (fun h => CallError h e) (map snd ran) ++
           map CallFinally (map snd ran))
          (mkProgress hc w fs od)
        = mkProgress hc' w' (fs ++ quiet (length ran) ++ quiet (length ran)) od
  end.
Proof.
  unfold fail, mbind, exec_mbind, exec_bind, mret, exec_mret, exec_ret.
  pose proof (runError_run ran hc e hh w fs od) as HE.
  destruct (runError ran hc e hh w) as [[hc1 w1] t1].
  destruct HE as [-> HE].
  pose proof (runFinally_run ran hc1 hh w1 (fs ++ quiet (length ran)) od) as HF.
  destruct (runFinally ran hc1 hh w1) as [[hc2 w2] t2].
  destruct HF as [-> HF].
  split; [reflexivity|]. split; [by rewrite List.app_nil_r|].
  exists hc2. rewrite perform_app, HE, HF. by rewrite <- List.app_assoc.
Qed.

Lemma runBefore_run hs hc hh ran w fs od :
  match runBefore hs hc hh ran w with
  | (ran', hc', None, w', tr) =>
      ran' = rev hs ++ ran /\
      tr = map (fun x => EvBefore (fst x) None) hs /\
      perform hh (map CallBefore (map snd hs)) (mkProgress hc w fs od)
      = mkProgress hc' w' (fs ++ quiet (length hs)) od
  | (ran', hc', Some e, w', tr) =>
      exists pre x post,
        hs = pre ++ x :: post /\ ran' = x :: rev pre ++ ran /\
        tr = map (fun x => EvBefore (fst x) None) pre ++
             [EvBefore (fst x) (Some e)] /\
        perform hh (map CallBefore (map snd (pre ++ [x])))
          (mkProgress hc w fs od)
        = mkProgress hc' w' (fs ++ quiet (length pre) ++ [Some e]) od
  end.
Proof.
  revert hc ran w fs. induction hs as [|[i h] rest IH]; intros hc ran w fs.
  { simpl. repeat split. by rewrite List.app_nil_r. }
  cbn [runBefore]. unfold mbind, exec_mbind, exec_bind, call, emit.
  destruct (Before h hc hh w) as [[delta [e|]] w1] eqn:HB; simpl.
  - exists [], (i, h), rest. repeat split.
    cbn [app map snd]. rewrite perform_cons.
    cbn [make_call at_context at_world replies resolved].
    rewrite HB. reflexivity.
  - specialize (IH (absorb hc delta) ((i, h) :: ran) w1 (fs ++ [None])).
    destruct (runBefore rest (absorb hc delta) hh ((i, h) :: ran) w1)
      as [[[[ran' hc'] [e|]] w2] t].
    + destruct IH as (pre & x & post & -> & -> & -> & IH).
      exists ((i, h) :: pre), x, post. simpl.
      repeat split; [by rewrite <- List.app_assoc|].
      rewrite perform_cons.
      cbn [make_call at_context at_world replies resolved].
      rewrite HB. cbn [absorb_reply].
      etransitivity; [exact IH|]. by rewrite <- List.app_assoc.
    + destruct IH as (-> & -> & IH). simpl.
      split; [by rewrite <- List.app_assoc|]. split; [reflexivity|].
      rewrite perform_cons.
      cbn [make_call at_context at_world replies resolved].
      rewrite HB. cbn [absorb_reply].
      etransitivity; [exact IH|]. by rewrite quiet_S.
Qed.

Lemma runAfter_run ran hc details hh w fs od :
  match runAfter ran hc details hh w with
  | (hc', None, w', tr) =>
      tr = map (fun x => EvAfter (fst x) None) ran /\
      perform hh (map (fun h => CallAfter h details) (map snd ran))
        (mkProgress hc w fs od)
      = mkProgress hc' w' (fs ++ quiet (length ran)) od
  | (_, Some e, _, tr) =>
      exists pre x post,
        ran = pre ++ x :: post /\
        tr = map (fun x => EvAfter (fst x) None) pre ++
             [EvAfter (fst x) (Some e)]
  end.
Proof.
  revert hc w fs. induction ran as [|[i h] rest IH]; intros hc w fs.
  { simpl. split; [reflexivity|]. by rewrite List.app_nil_r. }
  cbn [runAfter]. unfold mbind, exec_mbind, exec_bind, call, emit.
  destruct (After h hc details hh w) as [[delta [e|]] w1] eqn:HA; simpl.
  - exists [], (i, h), rest. split; reflexivity.
  - specialize (IH (absorb hc delta) w1 (fs ++ [None])).
    destruct (runAfter rest (absorb hc delta) details hh w1)
      as [[[hc' [e|]] w2] t].
    + destruct IH as (pre & x & post & -> & ->).
      exists ((i, h) :: pre), x, post. split; reflexivity.
    + destruct IH as [-> IH]. split; [reflexivity|].
      rewrite perform_cons.
      cbn [make_call at_context at_world replies resolved].
      rewrite HA. cbn [absorb_reply].
      etransitivity; [exact IH|]. by rewrite quiet_S.
Qed.

(** *** One evaluation, over the numbered hooks *)

Lemma evaluate_cases hooks hc hh w :
  match evaluate hooks hc hh w with
  | (r, w', tr) =>
  (exists d hc',
      r = Resolved d /\
      tr = map (fun x => EvBefore (fst x) None) (numbered hooks) ++
        EvResolve None ::
        map (fun x => EvAfter (fst x) None) (rev (numbered hooks)) ++
        map (fun x => EvFinally (fst x)) (rev (numbered hooks)) /\
      perform hh
        (map CallBefore (map snd (numbered hooks)) ++
         CallResolve ::
         map (fun h => CallAfter h d) (map snd (rev (numbered hooks))) ++
         map CallFinally (map snd (rev (numbered hooks))))
        (start hc w)
      = mkProgress hc' w'
          (quiet (length (numbered hooks)) ++ None ::
           quiet (length (rev (numbered hooks))) ++
           quiet (length (rev (numbered hooks))))
          (Some d)) \/
  (exists e pre x post hc',
      numbered hooks = pre ++ x :: post /\
      r = Failed e /\
      tr = map (fun x => EvBefore (fst x) None) pre ++
        EvBefore (fst x) (Some e) ::
        map (fun x => EvError (fst x) e) (x :: rev pre) ++
        map (fun x => EvFinally (fst x)) (x :: rev pre) /\
      perform hh
        (map CallBefore (map snd (pre ++ [x])) ++
         map (fun h => CallError h e) (map snd (x :: rev pre)) ++
         map CallFinally (map snd (x :: rev pre)))
        (start hc w)
      = mkProgress hc' w'
          (quiet (length pre) ++ Some e ::
           quiet (length (x :: rev pre)) ++ quiet (length (x :: rev pre)))
          None) \/
  (exists e d hc',
      r = Failed e /\
      tr = map (fun x => EvBefore (fst x) None) (numbered hooks) ++
        EvResolve (Some e) ::
        map (fun x => EvError (fst x) e) (rev (numbered hooks)) ++
        map (fun x => EvFinally (fst x)) (rev (numbered hooks)) /\
      perform hh
        (map CallBefore (map snd (numbered hooks)) ++
         CallResolve ::
         map (fun h => CallError h e) (map snd (rev (numbered hooks))) ++
         map CallFinally (map snd (rev (numbered hooks))))
        (start hc w)
      = mkProgress hc' w'
          (quiet (length (numbered hooks)) ++ Some e ::
           quiet (length (rev (numbered hooks))) ++
           quiet (length (rev (numbered hooks))))
          (Some d)) \/
  (exists e pre x post,
      rev (numbered hooks) = pre ++ x :: post /\
      r = Failed e /\
      tr = map (fun x => EvBefore (fst x) None) (numbered hooks) ++
        EvResolve None ::
        map (fun x => EvAfter (fst x) None) pre ++
        EvAfter (fst x) (Some e) ::
        map (fun x => EvError (fst x) e) (rev (numbered hooks)) ++
        map (fun x => EvFinally (fst x)) (rev (numbered hooks)))
  end.
Proof.
  unfold evaluate, mbind, exec_mbind. unfold exec_bind at 1.
  pose proof (runBefore_run (numbered hooks) hc hh [] w [] None) as HB.
  destruct (runBefore (numbered hooks) hc hh [] w)
    as [[[[ran hc1] [e|]] w1] t1].
  - (* a Before failed *)
    destruct HB as (pre & x & post & Hhs & -> & -> & HB).
    rewrite List.app_nil_r.
    pose proof (fail_run (x :: rev pre) hc1 e hh w1
                  ([] ++ quiet (length pre) ++ [Some e]) None) as HF.
    destruct (fail (x :: rev pre) hc1 e hh w1) as [[r w2] t2].
    destruct HF as (-> & -> & hc2 & HF).
    right; left. exists e, pre, x, post, hc2.
    split; [exact Hhs|]. split; [reflexivity|].
    split; [by rewrite <- List.app_assoc|].
    rewrite perform_app. unfold start.
    etransitivity; [apply (f_equal (perform hh _)); exact HB|].
    etransitivity; [exact HF|].
    cbn [app]. by rewrite <- List.app_assoc.
  - destruct HB as (-> & -> & HB). rewrite List.app_nil_r.
    unfold exec_bind at 1. unfold call at 1.
    destruct (Resolve (HookContext_FlagKey hc1) (HookContext_FlagType hc1)
                (HookContext_DefaultValue hc1)
                (HookContext_EvaluationContext hc1) w1)
      as [[details [e|]] w2] eqn:HR.
    + (* Resolve failed *)
      unfold exec_bind, emit.
      pose proof (fail_run (rev (numbered hooks)) hc1 e hh w2
                    (([] ++ quiet (length (numbered hooks))) ++ [Some e])
                    (Some details)) as HF.
      destruct (fail (rev (numbered hooks)) hc1 e hh w2) as [[r w3] t3].
      destruct HF as (-> & -> & hc2 & HF).
      right; right; left. exists e, details, hc2.
      split; [reflexivity|]. split; [reflexivity|].
      rewrite perform_app. unfold start.
      etransitivity; [apply (f_equal (perform hh _)); exact HB|].
      rewrite perform_cons.
      cbn [make_call at_context at_world replies resolved]. rewrite HR.
      etransitivity; [exact HF|].
      cbn [app]. by rewrite <- List.app_assoc.
    + unfold exec_bind at 1. unfold emit at 1. unfold exec_bind at 1.
      pose proof (runAfter_run (rev (numbered hooks)) hc1 details hh w2
                    (([] ++ quiet (length (numbered hooks))) ++ [None])
                    (Some details)) as HA.
      destruct (runAfter (rev (numbered hooks)) hc1 details hh w2)
        as [[[hc2 [e|]] w3] t3].
      * (* an After failed *)
        destruct HA as (pre & x & post & Hran & ->).
        pose proof (fail_run (rev (numbered hooks)) hc2 e hh w3 [] None) as HF.
        destruct (fail (rev (numbered hooks)) hc2 e hh w3) as [[r w4] t4].
        destruct HF as (-> & -> & _).
        right; right; right. exists e, pre, x, post.
        split; [exact Hran|]. split; [reflexivity|].
        cbn [app]. by rewrite <- List.app_assoc.
      * (* everything succeeded *)
        destruct HA as [-> HA].
        unfold exec_bind, mret, exec_mret, exec_ret.
        pose proof (runFinally_run (rev (numbered hooks)) hc2 hh w3
                      ((([] ++ quiet (length (numbered hooks))) ++ [None]) ++
                       quiet (length (rev (numbered hooks))))
                      (Some details)) as HF.
        destruct (runFinally (rev (numbered hooks)) hc2 hh w3)
          as [[hc3 w4] t4].
        destruct HF as [-> HF].
        left. exists details, hc3.
        split; [reflexivity|]. split; [by rewrite List.app_nil_r|].
        rewrite perform_app. unfold start.
        etransitivity; [apply (f_equal (perform hh _)); exact HB|].
        rewrite perform_cons.
        cbn [make_call at_context at_world replies resolved]. rewrite HR.
        rewrite perform_app.
        etransitivity; [apply (f_equal (perform hh _)); exact HA|].
        etransitivity; [exact HF|].
        cbn [app]. by rewrite <- !List.app_assoc.
Qed.

(** *** One evaluation, by positions and hooks *)

Lemma map_positions {B} (f : nat -> B) (l : list (nat * Hook)) :
  map (fun x => f (fst x)) l = map f (map fst l).
Proof. by rewrite List.map_map. Qed.

Lemma before_positions (l : list (nat * Hook)) :
  map (fun x => EvBefore (fst x) None) l
  = map (fun i => EvBefore i None) (map fst l).
Proof. exact (map_positions (fun i => EvBefore i None) l). Qed.

Lemma after_positions (l : list (nat * Hook)) :
  map (fun x => EvAfter (fst x) None) l
  = map (fun i => EvAfter i None) (map fst l).
Proof. exact (map_positions (fun i => EvAfter i None) l). Qed.

Lemma error_positions (e : Err) (l : list (nat * Hook)) :
  map (fun x => EvError (fst x) e) l
  = map (fun i => EvError i e) (map fst l).
Proof. exact (map_positions (fun i => EvError i e) l). Qed.

Lemma finally_positions (l : list (nat * Hook)) :
  map (fun x => EvFinally (fst x)) l = map EvFinally (map fst l).
Proof. exact (map_positions EvFinally l). Qed.

Ltac positions :=
  rewrite ?before_positions, ?after_positions, ?error_positions,
    ?finally_positions.

Lemma numbered_length (hooks : list Hook) :
  length (numbered hooks) = length hooks.
Proof.
  rewrite <- (List.length_map snd (numbered hooks)).
  by rewrite numbered_hooks.
Qed.

Lemma numbered_taken (hooks : list Hook) pre x post :
  numbered hooks = pre ++ x :: post ->
  map snd (pre ++ [x]) = firstn (S (length pre)) hooks.
Proof.
  intros H. apply (f_equal (map snd)) in H. rewrite numbered_hooks in H.
  rewrite H.
  replace (pre ++ x :: post) with ((pre ++ [x]) ++ post)
    by (by rewrite <- List.app_assoc).
  rewrite (List.map_app snd (pre ++ [x]) post), List.firstn_app.
  rewrite List.firstn_all2
    by (rewrite List.length_map, List.length_app; simpl; lia).
  rewrite List.length_map, List.length_app. simpl.
  replace (S (length pre) - (length pre + 1)) with 0 by lia.
  simpl. by rewrite List.app_nil_r.
Qed.

Lemma evaluate_lifecycle hooks hc hh w :
  lifecycle hooks hc hh w (evaluate hooks hc hh w).
Proof.
  pose proof (evaluate_cases hooks hc hh w) as H.
  destruct (evaluate hooks hc hh w) as [[r w'] tr].
  pose proof (numbered_positions hooks) as Hpos.
  pose proof (numbered_hooks hooks) as Hhk.
  pose proof (numbered_length hooks) as Hlen.
  destruct H as [(d & hc' & -> & -> & HP)
               | [(e & pre & x & post & hc' & Hhs & -> & -> & HP)
               | [(e & d & hc' & -> & -> & HP)
               | (e & pre & x & post & Hran & -> & ->)]]].
  - positions. rewrite List.map_rev, Hpos.
    rewrite List.map_rev, Hhk, List.length_rev, Hlen in HP.
    exact (lifecycle_resolved hooks hc hh w d _ HP eq_refl eq_refl).
  - pose proof (numbered_taken hooks pre x post Hhs) as Htk.
    apply (f_equal (map fst)) in Hhs.
    rewrite Hpos, List.map_app in Hhs. simpl in Hhs.
    apply seq_split in Hhs as (Hpre & Hx & _ & Hn).
    rewrite !List.length_map in *. simpl in Hx.
    positions. simpl map. rewrite List.map_rev, Hpre, Hx.
    rewrite <- (List.rev_unit pre x), List.map_rev, Htk in HP.
    rewrite List.length_rev, List.length_app in HP. simpl length in HP.
    replace (length pre + 1) with (S (length pre)) in HP by lia.
    assert (Hrep : replies
                     (mkProgress hc' w'
                        (quiet (length pre) ++ Some e ::
                         quiet (S (length pre)) ++ quiet (S (length pre)))
                        None)
                   = quiet (S (length pre) - 1) ++ Some e ::
                     quiet (S (length pre)) ++ quiet (S (length pre))).
    { replace (S (length pre) - 1) with (length pre) by lia. reflexivity. }
    pose proof (lifecycle_before_failed hooks hc hh w (S (length pre)) e _
                  ltac:(lia) HP Hrep eq_refl) as L.
    unfold befores, errors, finallys in L. rewrite rev_seq_S in L.
    replace (S (length pre) - 1) with (length pre) in L by lia.
    exact L.
  - positions. rewrite List.map_rev, Hpos.
    rewrite List.map_rev, Hhk, List.length_rev, Hlen in HP.
    exact (lifecycle_resolve_failed hooks hc hh w e _ HP eq_refl).
  - apply (f_equal (map fst)) in Hran.
    rewrite List.map_rev, Hpos, List.map_app in Hran. simpl in Hran.
    apply (f_equal (@rev nat)) in Hran.
    rewrite List.rev_involutive, List.rev_app_distr in Hran. simpl in Hran.
    rewrite <- List.app_assoc in Hran. simpl in Hran.
    apply seq_split in Hran as (_ & Hx & Hpre & Hn).
    rewrite !List.length_rev, !List.length_map in *. simpl in Hx, Hpre.
    apply (f_equal (@rev nat)) in Hpre. rewrite List.rev_involutive in Hpre.
    positions. rewrite List.map_rev, Hpos, Hpre, Hx.
    pose proof (lifecycle_after_failed hooks hc hh w (S (length post)) e w')
      as L.
    replace (length hooks - S (length post)) with (length pre) in L by lia.
    apply L. lia.
Qed.

(** *** Membership in a trace *)


Lemma resolves_map (f : nat -> event) (l : list nat) :
  (forall i, is_resolve (f i) = false) ->
  List.filter is_resolve (map f l) = [].
Proof.
  intros Hf. induction l as [|i l IH]; simpl; [reflexivity|].
  by rewrite Hf.
Qed.

(** *** The claims about the order of invocations *)

(** C2: when no [Before], [Resolve] or [After] call of an evaluation over
    [n] hooks fails, the executor makes exactly these calls, in this order:
    [Before] on the hooks in registration order, [Resolve] once, [After] on
    the hooks in reverse registration order, [Finally] on the hooks in
    reverse registration order.  The world it leaves is the one these calls
    leave, every one of them comes back without an error, and the caller
    receives the details [Resolve] returned; the trace names the positions
    [1..n], [Resolve], [n..1], [n..1].  For hooks [A, B] the calls are
    [A.Before, B.Before, Resolve, B.After, A.After, B.Finally,
    A.Finally]. *)
Theorem evaluate_success_order hooks hc hh w :
  forallb succeeded (trace_of (evaluate hooks hc hh w)) = true ->
  exists d,
    value_of (evaluate hooks hc hh w) = Resolved d /\
    world_of (evaluate hooks hc hh w)
    = at_world (perform hh (resolved_schedule hooks d) (start hc w)) /\
    replies (perform hh (resolved_schedule hooks d) (start hc w))
    = quiet (length hooks) ++ None ::
      quiet (length hooks) ++ quiet (length hooks) /\
    resolved (perform hh (resolved_schedule hooks d) (start hc w)) = Some d /\
    trace_of (evaluate hooks hc hh w)
    = befores (length hooks) ++ EvResolve None ::
      afters (length hooks) ++ finallys (length hooks) /\
    resolves (trace_of (evaluate hooks hc hh w)) = 1 /\
    (forall A B, hooks = [A; B] ->
       trace_of (evaluate hooks hc hh w)
       = [EvBefore 1 None; EvBefore 2 None; EvResolve None;
          EvAfter 2 None; EvAfter 1 None; EvFinally 2; EvFinally 1] /\
       world_of (evaluate hooks hc hh w)
       = at_world
           (perform hh
              [CallBefore A; CallBefore B; CallResolve;
               CallAfter B d; CallAfter A d; CallFinally B; CallFinally A]
              (start hc w))).
Proof.
  intros Hok.
  pose proof (evaluate_lifecycle hooks hc hh w) as L.
  rewrite List.forallb_forall in Hok.
  inversion L as [d p Hp Hrep Hres Heq | k e p Hk Hp Hrep Hres Heq
                 | e p Hp Hrep Heq | j e w' Hj Heq];
    rewrite <- Heq in Hok; unfold trace_of in Hok; cbn [snd] in Hok.
  - exists d. subst p. unfold value_of, world_of, trace_of. cbn [fst snd].
    split; [reflexivity|]. split; [reflexivity|]. split; [exact Hrep|].
    split; [exact Hres|]. split; [reflexivity|]. split.
    + unfold resolves, befores, afters, finallys.
      rewrite List.filter_app. simpl. rewrite List.filter_app.
      rewrite !resolves_map by reflexivity. reflexivity.
    + intros A B ->. split; reflexivity.
  - specialize (Hok (EvBefore k (Some e)) (List.in_elt _ _ _)). discriminate.
  - specialize (Hok (EvResolve (Some e)) (List.in_elt _ _ _)). discriminate.
  - assert (Hin : In (EvAfter j (Some e))
                    (befores (length hooks) ++ EvResolve None ::
                     map (fun i => EvAfter i None)
                         (rev (seq (S j) (length hooks - j))) ++
                     EvAfter j (Some e) ::
                     errors (length hooks) e ++ finallys (length hooks))).
    { apply List.in_or_app. right. right. apply List.in_elt. }
    specialize (Hok _ Hin). discriminate.
Qed.



End executor_properties.

(** * Further properties of the value objects *)

Section value_object_properties.
Context `{D : Decls}.

Lemma entries_insert_ne (l' : loc) (m : mapref) (s : store)
    (M : gmap string any) :
  m <> Some l' -> entries (<[l' := M]> s) m = entries s m.
Proof.
  intros Hne. destruct m as [l|]; [|reflexivity].
  unfold entries, store, loc.
  rewrite lookup_insert_ne by congruence. reflexivity.
Qed.

(** Map objects are kept apart: hints over a map [m], nil included, return
    for every key what they returned before, whatever a caller writes to or
    deletes from another map object. *)
Theorem HookHints_Value_other_map (m : mapref) (l' : loc) (key k : string)
    (v : any) (s : store) :
  m <> Some l' ->
  returned (go_bind (map_assign (Some l') k v)
              (fun _ => HookHints_Value (NewHookHints m) key) s)
  = returned (HookHints_Value (NewHookHints m) key s) /\
  returned (go_bind (map_delete (Some l') k)
              (fun _ => HookHints_Value (NewHookHints m) key) s)
  = returned (HookHints_Value (NewHookHints m) key s).
Proof.
  intros Hne.
  unfold go_bind, map_assign, map_delete, HookHints_Value, map_index, returned.
  cbn [mapOfHints NewHookHints].
  rewrite !entries_insert_ne by exact Hne. split; reflexivity.
Qed.

(** A caller-side [delete(m, k)] made after the hints were built shows
    through them: [Value(k)] then returns the nil interface, [Value] of
    every other key returns what it returned before, and on the nil map the
    delete changes nothing.  Nothing panics. *)
Theorem HookHints_Value_after_delete (m : mapref) (key k : string)
    (s : store) :
  returned (go_bind (map_delete m k)
              (fun _ => HookHints_Value (NewHookHints m) key) s)
  = (if decide (k = key) then Some Nil
     else returned (HookHints_Value (NewHookHints m) key s)).
Proof.
  unfold go_bind, map_delete, HookHints_Value, map_index, returned.
  cbn [mapOfHints NewHookHints].
  destruct m as [l|].
  - rewrite entries_insert, lookup_delete.
    destruct (decide (k = key)); reflexivity.
  - cbn [entries]. rewrite lookup_empty.
    destruct (decide (k = key)); reflexivity.
Qed.

(** A hook context holds nothing but what its six accessors expose: two
    contexts are equal exactly when the accessors agree on them. *)
Theorem HookContext_extensional (h1 h2 : HookContext) :
  h1 = h2 <->
  HookContext_FlagKey h1 = HookContext_FlagKey h2 /\
  HookContext_FlagType h1 = HookContext_FlagType h2 /\
  HookContext_DefaultValue h1 = HookContext_DefaultValue h2 /\
  HookContext_ClientMetadata h1 = HookContext_ClientMetadata h2 /\
  HookContext_ProviderMetadata h1 = HookContext_ProviderMetadata h2 /\
  HookContext_EvaluationContext h1 = HookContext_EvaluationContext h2.
Proof.
  split.
  - intros ->. repeat split.
  - destruct h1, h2.
    unfold HookContext_FlagKey, HookContext_FlagType, HookContext_DefaultValue,
      HookContext_ClientMetadata, HookContext_ProviderMetadata,
      HookContext_EvaluationContext.
    cbn. intros (-> & -> & -> & -> & -> & ->). reflexivity.
Qed.

End value_object_properties.

(** * The properties at the concrete instance *)

(** C1 (as stated) fails: a caller that builds hints from the map object at
    address 1, which holds ["a" := 1], reads ["a"] through the hints, writes
    [m["a"] = 2] and reads again gets 1 and then 2. *)
Lemma NewHookHints_copy_counterexample :
  ~ (forall (m : mapref) (key k : string) (v : @any Demo.decls)
            (s : @store Demo.decls) (before after : @any Demo.decls),
        returned (read_write_read m key k v s) = Some (before, after) ->
        before = after).
Proof.
  intros H.
  specialize (H (Some 1%positive) "a" "a" (@Box Demo.decls 2%Z) Demo.store0
                (@Box Demo.decls 1%Z) (@Box Demo.decls 2%Z)).
  assert (Heq : @Box Demo.decls 1%Z = @Box Demo.decls 2%Z).
  { apply H. vm_compute. reflexivity. }
  discriminate Heq.
Qed.

(** C5 (as stated) fails on the same run: the second read returns 2, which
    is neither the value stored under ["a"] when the hints were built nor
    what the first read returned. *)
Lemma HookHints_Value_construction_counterexample :
  ~ (forall (m : mapref) (key k : string) (v : @any Demo.decls)
            (s : @store Demo.decls) (before after : @any Demo.decls),
        returned (read_write_read m key k v s) = Some (before, after) ->
        after = default Nil (entries s m !! key) /\ after = before).
Proof.
  intros H.
  destruct (H (Some 1%positive) "a" "a" (@Box Demo.decls 2%Z) Demo.store0
              (@Box Demo.decls 1%Z) (@Box Demo.decls 2%Z)) as [_ Heq].
  { vm_compute. reflexivity. }
  discriminate Heq.
Qed.

(** C5 at the store holding ["a" := 1]: [Value("a")] returns 1, also after
    looking up ["a"] and ["b"]. *)
Lemma HookHints_Value_stored_witness :
  @entries Demo.decls Demo.store0 (Some 1%positive) !! "a"
  = Some (@Box Demo.decls 1%Z) /\
  @HookHints_Value Demo.decls (NewHookHints (Some 1%positive)) "a" Demo.store0
  = Returned (@Box Demo.decls 1%Z) Demo.store0 /\
  go_bind (@lookups Demo.decls (NewHookHints (Some 1%positive)) ["a"; "b"])
    (fun _ => HookHints_Value (NewHookHints (Some 1%positive)) "a")
    Demo.store0
  = Returned (@Box Demo.decls 1%Z) Demo.store0.
Proof.
  assert (Hst : @entries Demo.decls Demo.store0 (Some 1%positive) !! "a"
                = Some (@Box Demo.decls 1%Z)).
  { vm_compute. reflexivity. }
  split; [exact Hst|].
  apply (@HookHints_Value_stored Demo.decls (Some 1%positive) Demo.store0 "a"
           ["a"; "b"] (@Box Demo.decls 1%Z)).
  left. exact Hst.
Defined.

(** C2 at hooks [A, B] that never fail, with an engine that resolves: the
    trace, and the log the hooks and the engine wrote to the world. *)
Lemma evaluate_success_order_witness :
  forallb succeeded
    (trace_of (@evaluate Demo.decls (Demo.engine None)
                 [Demo.noisy "A" None; Demo.noisy "B" None]
                 Demo.hc0 Demo.hh0 [])) = true /\
  trace_of (@evaluate Demo.decls (Demo.engine None)
              [Demo.noisy "A" None; Demo.noisy "B" None]
              Demo.hc0 Demo.hh0 [])
  = [EvBefore 1 None; EvBefore 2 None; EvResolve None;
     EvAfter 2 None; EvAfter 1 None; EvFinally 2; EvFinally 1] /\
  world_of (@evaluate Demo.decls (Demo.engine None)
              [Demo.noisy "A" None; Demo.noisy "B" None]
              Demo.hc0 Demo.hh0 [])
  = ["A.Before"; "B.Before"; "Resolve"; "B.After"; "A.After";
     "B.Finally"; "A.Finally"].
Proof.
  assert (Hok : forallb succeeded
                  (trace_of (@evaluate Demo.decls (Demo.engine None)
                               [Demo.noisy "A" None; Demo.noisy "B" None]
                               Demo.hc0 Demo.hh0 [])) = true).
  { vm_compute. reflexivity. }
  split; [exact Hok|].
  destruct (@evaluate_success_order Demo.decls (Demo.engine None)
              [Demo.noisy "A" None; Demo.noisy "B" None]
              Demo.hc0 Demo.hh0 [] Hok)
    as (d & _ & _ & _ & _ & _ & _ & Htwo).
  destruct (Htwo (Demo.noisy "A" None) (Demo.noisy "B" None) eq_refl)
    as [Htr Hw].
  split; [exact Htr|].
  etransitivity; [exact Hw|]. vm_compute. reflexivity.
Defined.



(** Hints over the map at address 1 are not changed by a write to, or a
    delete from, the map at address 2. *)
Lemma HookHints_Value_other_map_witness :
  Some 1%positive <> Some 2%positive /\
  returned (go_bind (@map_assign Demo.decls (Some 2%positive) "a" Nil)
              (fun _ => HookHints_Value (NewHookHints (Some 1%positive)) "a")
              Demo.store0)
  = Some (@Box Demo.decls 1%Z).
Proof.
  assert (Hne : Some 1%positive <> Some 2%positive) by discriminate.
  split; [exact Hne|].
  destruct (@HookHints_Value_other_map Demo.decls (Some 1%positive) 2%positive
              "a" "a" Nil Demo.store0 Hne) as [Hw _].
  etransitivity; [exact Hw|]. vm_compute. reflexivity.
Defined.
